(** * SPH_3D: smoothed-particle hydrodynamics step, verified over the reals

    A shallow embedding of the numerical core of [SPH_3D.ipynb]
    ([kernel], [gradKernel], [magnitude], [density], [pressure],
    [acceleration] and the body of the main loop).

    Arithmetic.  The notebook computes with IEEE doubles; here every float
    is a real number of the Standard Library ([R]), so rounding, overflow
    and underflow are not part of the model.  Division is Rocq's total
    division and [x ** y] with a real exponent is [Rpower] (exp (y ln x),
    numpy's value on a positive base); the theorems carry the hypotheses
    (h > 0, nonzero densities, ...) under which the source divides by a
    nonzero number and raises a positive base.

    Arrays.  A numpy array of shape (N,3) is a list of [vec3] rows, a
    one-dimensional array or an (M,1) column is a [list R], a (1,N) row is
    a [rowvec], an (M,N) matrix is a list of M rows.  numpy's overloaded
    arithmetic is the class [Numeric], with the scalar instance and the
    elementwise lifting to lists; broadcasting of a column against a row is
    [outer].

    State.  Arrays that the notebook updates in place live in a [heap] and
    are passed by reference; [acceleration] and [step] are computations in
    a small state-and-failure monad.

    Frames.  The names of the saved frames and the sort of the animation
    cell ([os.path.basename], [re.search], [int], [sorted]) are functions
    on ASCII strings with POSIX separators; an exception of the notebook
    is the result [None]. *)

From Stdlib Require Import Ascii String DecimalString DecimalNat.
From Stdlib Require Import Reals Lra List.
From stdpp Require Import base list sorting.
Import ListNotations.

Open Scope R_scope.

(** ** numpy arithmetic *)

Declare Scope np_scope.
Delimit Scope np_scope with np.

Class Numeric (T : Type) := {
  nadd  : T -> T -> T;      (* a + b *)
  nsub  : T -> T -> T;      (* a - b *)
  nmul  : T -> T -> T;      (* a * b *)
  ndiv  : T -> T -> T;      (* a / b *)
  nneg  : T -> T;           (* -a *)
  npowi : T -> nat -> T;    (* a ** 2, integer exponent *)
  npowr : T -> R -> T;      (* a ** 1.5, float exponent *)
  nsqrt : T -> T;           (* np.sqrt(a) *)
  nexp  : T -> T;           (* np.exp(a) *)
  smul  : R -> T -> T;      (* s * a, s a Python scalar *)
  muls  : T -> R -> T;      (* a * s *)
  divs  : T -> R -> T       (* a / s *)
}.

Notation "a + b" := (nadd a b) : np_scope.
Notation "a - b" := (nsub a b) : np_scope.
Notation "a * b" := (nmul a b) : np_scope.
Notation "a / b" := (ndiv a b) : np_scope.
Notation "- a" := (nneg a) : np_scope.
Notation "a ** n" := (npowi a n) (at level 30, right associativity) : np_scope.
Notation "a .** y" := (npowr a y) (at level 30, right associativity) : np_scope.
Notation "s .* a" := (smul s a) (at level 40, left associativity) : np_scope.
Notation "a *~ s" := (muls a s) (at level 40, left associativity) : np_scope.
Notation "a ./ s" := (divs a s) (at level 40, left associativity) : np_scope.

(** Floats (zero-dimensional arrays). *)
#[export] Instance Numeric_R : Numeric R := {
  nadd := Rplus; nsub := Rminus; nmul := Rmult; ndiv := Rdiv; nneg := Ropp;
  npowi := pow; npowr := Rpower; nsqrt := sqrt; nexp := exp;
  smul := Rmult; muls := Rmult; divs := Rdiv
}.

(** Elementwise combination of two arrays of the same shape.  numpy raises
    (or broadcasts) when the shapes differ; the model stops at the shorter
    list, and the shapes agree wherever the notebook combines arrays. *)
Fixpoint map2 {A B C} (f : A -> B -> C) (l1 : list A) (l2 : list B) : list C :=
  match l1, l2 with
  | a :: l1', b :: l2' => f a b :: map2 f l1' l2'
  | _, _ => []
  end.

(** One more axis: every operation acts entry by entry. *)
#[export] Instance Numeric_list {T} `{Numeric T} : Numeric (list T) := {
  nadd := map2 nadd; nsub := map2 nsub; nmul := map2 nmul; ndiv := map2 ndiv;
  nneg := map nneg;
  npowi := fun a n => map (fun x => npowi x n) a;
  npowr := fun a y => map (fun x => npowr x y) a;
  nsqrt := map nsqrt; nexp := map nexp;
  smul := fun s => map (smul s);
  muls := fun a s => map (fun x => muls x s) a;
  divs := fun a s => map (fun x => divs x s) a
}.

(** A row of an (N,3) array. *)
Record vec3 := Vec3 { vx : R; vy : R; vz : R }.

Definition vec3_map (f : R -> R) (a : vec3) : vec3 :=
  Vec3 (f (vx a)) (f (vy a)) (f (vz a)).
Definition vec3_map2 (f : R -> R -> R) (a b : vec3) : vec3 :=
  Vec3 (f (vx a) (vx b)) (f (vy a) (vy b)) (f (vz a) (vz b)).

#[export] Instance Numeric_vec3 : Numeric vec3 := {
  nadd := vec3_map2 Rplus; nsub := vec3_map2 Rminus;
  nmul := vec3_map2 Rmult; ndiv := vec3_map2 Rdiv;
  nneg := vec3_map Ropp;
  npowi := fun a n => vec3_map (fun x => x ^ n) a;
  npowr := fun a y => vec3_map (fun x => Rpower x y) a;
  nsqrt := vec3_map sqrt; nexp := vec3_map exp;
  smul := fun s => vec3_map (Rmult s);
  muls := fun a s => vec3_map (fun x => x * s) a;
  divs := fun a s => vec3_map (fun x => x / s) a
}.

(** Shapes of the notebook's arrays. *)
Abbreviation points := (list vec3) (only parsing).        (* (N,3) *)
Abbreviation column := (list R) (only parsing).           (* (M,) and (M,1) *)
Abbreviation matrix := (list (list R)) (only parsing).    (* (M,N) *)

(** A (1,N) array, the transpose of a column. *)
Record rowvec := Row { row_entries : list R }.

(** [c.T] for a column [c]. *)
Definition transpose (c : column) : rowvec := Row c.

#[export] Instance Numeric_rowvec : Numeric rowvec := {
  nadd := fun a b => Row (row_entries a + row_entries b)%np;
  nsub := fun a b => Row (row_entries a - row_entries b)%np;
  nmul := fun a b => Row (row_entries a * row_entries b)%np;
  ndiv := fun a b => Row (row_entries a / row_entries b)%np;
  nneg := fun a => Row (- row_entries a)%np;
  npowi := fun a n => Row (row_entries a ** n)%np;
  npowr := fun a y => Row (row_entries a .** y)%np;
  nsqrt := fun a => Row (nsqrt (row_entries a));
  nexp := fun a => Row (nexp (row_entries a));
  smul := fun s a => Row (s .* row_entries a)%np;
  muls := fun a s => Row (row_entries a *~ s)%np;
  divs := fun a s => Row (row_entries a ./ s)%np
}.

(** Broadcasting an (M,1) column against a (1,N) row gives the (M,N)
    matrix of all combinations. *)
Definition outer (f : R -> R -> R) (c : column) (r : rowvec) : matrix :=
  map (fun a => map (fun b => f a b) (row_entries r)) c.

(** [np.sum(A, 1)]: the sum of each row. *)
Definition Rsum (l : list R) : R := fold_right Rplus 0 l.
Definition sum_axis1 (A : matrix) : column := map Rsum A.

(** [v.reshape((M, 1))] of a one-dimensional array of length M: the same
    entries, seen as a column. *)
Definition reshape_column (M : nat) (v : list R) : column := v.

(** [np.hstack((ax, ay, az))] of three (N,1) columns. *)
Fixpoint hstack (ax ay az : column) : points :=
  match ax, ay, az with
  | x :: ax', y :: ay', z :: az' => Vec3 x y z :: hstack ax' ay' az'
  | _, _, _ => []
  end.

(** ** Kernel *)

(** [kernel(x, y, z, h)]: Gaussian smoothing kernel. *)
Definition kernel {T} `{Numeric T} (x y z : T) (h : R) : T :=
  let r := nsqrt (x ** 2 + y ** 2 + z ** 2)%np in
  let w := (((1 / (h * sqrt PI)) ^ 3) .* nexp ((- r ** 2) ./ (h ^ 2)))%np in
  w.

(** [gradKernel(x, y, z, h)]: gradient of the kernel. *)
Definition gradKernel {T} `{Numeric T} (x y z : T) (h : R) : T * T * T :=
  let r := nsqrt (x ** 2 + y ** 2 + z ** 2)%np in
  let n := ((-2) .* nexp ((- r ** 2) ./ (h ^ 2)) ./ (h ^ 5) ./ Rpower PI (3 / 2))%np in
  let wx := (n * x)%np in
  let wy := (n * y)%np in
  let wz := (n * z)%np in
  (wx, wy, wz).

(** ** Pairwise separations and density *)

(** [magnitude(ri, rj)]: the three (M,N) matrices of separations.
    [ri[:, 0]] is the list of first components of the rows. *)
Definition magnitude (ri rj : points) : matrix * matrix * matrix :=
  let M := length ri in
  let N := length rj in
  let r_i_x := reshape_column M (map vx ri) in
  let r_i_y := reshape_column M (map vy ri) in
  let r_i_z := reshape_column M (map vz ri) in
  let r_j_x := reshape_column N (map vx rj) in
  let r_j_y := reshape_column N (map vy rj) in
  let r_j_z := reshape_column N (map vz rj) in
  let dx := outer Rminus r_i_x (transpose r_j_x) in
  let dy := outer Rminus r_i_y (transpose r_j_y) in
  let dz := outer Rminus r_i_z (transpose r_j_z) in
  (dx, dy, dz).

(** [density(r, pos, m, h)]: density at the sampling locations [r]. *)
Definition density (r pos : points) (m h : R) : column :=
  let M := length r in
  let '(dx, dy, dz) := magnitude r pos in
  let rho := reshape_column M (sum_axis1 (m .* kernel dx dy dz h)%np) in
  rho.

(** ** Equation of state *)

(** [pressure(rho, k, n)]. *)
Definition pressure {T} `{Numeric T} (rho : T) (k n : R) : T :=
  let P := (k .* rho .** (1 + 1 / n))%np in
  P.

(** ** Arrays updated in place *)

Abbreviation ref := nat (only parsing).
Abbreviation heap := (list (list vec3)) (only parsing).

(** Computations that read and write the heap; [None] is a dangling
    reference, which the notebook never produces. *)
Definition ST (A : Type) : Type := heap -> option (A * heap).

Definition ret {A} (a : A) : ST A := fun s => Some (a, s).
Definition bind {A B} (c : ST A) (k : A -> ST B) : ST B :=
  fun s => match c s with
           | Some (a, s') => k a s'
           | None => None
           end.

Notation "'let*' x ':=' c 'in' k" := (bind c (fun x => k))
  (at level 10, x name, c at level 100, k at level 200).
Notation "c ';;' k" := (bind c (fun _ => k))
  (at level 100, k at level 200, right associativity).

(** A new array: numpy arithmetic and [np.hstack] return fresh arrays. *)
Definition alloc (v : points) : ST ref :=
  fun s => Some (length s, s ++ [v]).

(** Reading the array behind a reference. *)
Definition load (l : ref) : ST points :=
  fun s => match s !! l with
           | Some v => Some (v, s)
           | None => None
           end.

(** [a += v]: the array behind [l] is overwritten with the sum. *)
Definition iadd (l : ref) (v : points) : ST unit :=
  fun s => match s !! l with
           | Some a => Some (tt, <[l := (a + v)%np]> s)
           | None => None
           end.

(** ** Acceleration *)

(** The matrix summed along axis 1 in the lines for [ax], [ay], [az]:
    [m * (P/rho**2 + P.T/rho.T**2) * dW]. *)
Definition pair_terms (m : R) (P rho : column) (dW : matrix) : matrix :=
  (m .* outer Rplus (P / rho ** 2) (transpose P / transpose rho ** 2) * dW)%np.

(** [acceleration(pos, vel, m, h, k, n, lmbda, nu)]. *)
Definition acceleration (pos vel : ref) (m h k n lmbda nu : R) : ST ref :=
  let* p := load pos in
  let N := length p in
  let rho := density p p m h in
  let P := pressure rho k n in
  let '(dx, dy, dz) := magnitude p p in
  let '(dWx, dWy, dWz) := gradKernel dx dy dz h in
  let ax := (- reshape_column N (sum_axis1 (pair_terms m P rho dWx)))%np in
  let ay := (- reshape_column N (sum_axis1 (pair_terms m P rho dWy)))%np in
  let az := (- reshape_column N (sum_axis1 (pair_terms m P rho dWz)))%np in
  let* a := alloc (hstack ax ay az) in
  let* p := load pos in
  let* v := load vel in
  iadd a ((- lmbda) .* p - nu .* v)%np ;;
  ret a.

(** ** Main loop *)

(** [initial()]: positions come from the random generator, here the
    argument [pos0]; velocities are a fresh array of zeros of that shape. *)
Definition initial (pos0 : points) : ST (ref * ref) :=
  let* pos := alloc pos0 in
  let* vel := alloc (map (fun _ => Vec3 0 0 0) pos0) in
  ret (pos, vel).

(** One iteration of the loop, up to the density handed to the plot. *)
Definition step (pos vel : ref) (m h k n lmbda nu dt : R) : ST column :=
  let* acc := acceleration pos vel m h k n lmbda nu in
  let* a := load acc in
  iadd vel (a *~ dt)%np ;;
  let* v := load vel in
  iadd pos (v *~ dt)%np ;;
  let* p := load pos in
  ret (density p p m h).

(** [Nt] iterations. *)
Fixpoint main_loop (Nt : nat) (pos vel : ref) (m h k n lmbda nu dt : R) : ST unit :=
  match Nt with
  | O => ret tt
  | S Nt' => step pos vel m h k n lmbda nu dt ;;
             main_loop Nt' pos vel m h k n lmbda nu dt
  end.

(** The computation of the main cell: the initial state, then [Nt]
    iterations; the result is the pair of references to positions and
    velocities. *)
Definition simulation (pos0 : points) (Nt : nat) (m h k n lmbda nu dt : R)
    : ST (ref * ref) :=
  let* pv := initial pos0 in
  main_loop Nt (fst pv) (snd pv) m h k n lmbda nu dt ;;
  ret pv.

(** ** Closed forms used in the statements *)

(** Entry (i,j) of a matrix, when it exists. *)
Definition entry (A : matrix) (i j : nat) : option R :=
  match A !! i with
  | Some row => row !! j
  | None => None
  end.

(** The matrix whose entry (i,j) is [F] at the i-th element of [l] and the
    j-th element of [l']. *)
Definition grid {A B} (F : A -> B -> R) (l : list A) (l' : list B) : matrix :=
  map (fun a => map (F a) l') l.

(** The common factor [n] of the three gradient components. *)
Definition grad_factor (x y z h : R) : R :=
  -2 * exp (- (x ^ 2 + y ^ 2 + z ^ 2) / h ^ 2) / h ^ 5 / Rpower PI (3 / 2).

(** Density at the point [a]: the kernel sum over all particles of [pos]. *)
Definition rho_at (pos : points) (m h : R) (a : vec3) : R :=
  Rsum (map (fun b => m * kernel (vx a - vx b) (vy a - vy b) (vz a - vz b) h) pos).

(** [P_a / rho_a^2] for the particle at [a]. *)
Definition stress (pos : points) (m h k n : R) (a : vec3) : R :=
  pressure (rho_at pos m h a) k n / rho_at pos m h a ^ 2.

(** The term of the pair (a,b) along the axis [c] (one of [vx], [vy], [vz]). *)
Definition pair_term (c : vec3 -> R) (pos : points) (m h k n : R) (a b : vec3) : R :=
  m * (stress pos m h k n a + stress pos m h k n b)
    * (grad_factor (vx a - vx b) (vy a - vy b) (vz a - vz b) h * (c a - c b)).

(** Pressure acceleration of the particle at [a]. *)
Definition pressure_accel (pos : points) (m h k n : R) (a : vec3) : vec3 :=
  Vec3 (- Rsum (map (pair_term vx pos m h k n a) pos))
       (- Rsum (map (pair_term vy pos m h k n a) pos))
       (- Rsum (map (pair_term vz pos m h k n a) pos)).

(** Mass-weighted sum of the rows of an (N,3) array. *)
Definition momentum (m : R) (a : points) : vec3 :=
  Vec3 (Rsum (map (fun r => m * vx r) a))
       (Rsum (map (fun r => m * vy r) a))
       (Rsum (map (fun r => m * vz r) a)).





(** ** Frames of the animation *)

(** [str(i)] for a non-negative integer: its decimal digits.  CPython
    converts between [int] and [str] up to 4300 digits; the statements
    about [str] and [int] carry that bound as a hypothesis. *)
Definition str (i : nat) : string := NilZero.string_of_uint (Nat.to_uint i).

(** [f'output_3D_1/{i}.png']: the file the loop saves at iteration [i]. *)
Definition frame_name (i : nat) : string :=
  ("output_3D_1/" ++ str i ++ ".png")%string.

Definition is_sep (c : ascii) : bool := Ascii.eqb c "/".

Fixpoint contains_sep (p : string) : bool :=
  match p with
  | EmptyString => false
  | String c p' => is_sep c || contains_sep p'
  end.

(** [os.path.basename(p)]: what follows the last slash. *)
Fixpoint basename (p : string) : string :=
  match p with
  | EmptyString => EmptyString
  | String c p' =>
      if contains_sep p' then basename p'
      else if is_sep c then p' else p
  end.

(** The class [\d] on ASCII text. *)
Definition is_digit (c : ascii) : bool :=
  (48 <=? nat_of_ascii c)%nat && (nat_of_ascii c <=? 57)%nat.

Fixpoint take_digits (s : string) : string :=
  match s with
  | EmptyString => EmptyString
  | String c s' => if is_digit c then String c (take_digits s') else EmptyString
  end.

(** [re.search(r'(\d+)', s)] followed by [.group()]: the leftmost run of
    digits, as long as possible; [None] where the search finds nothing
    and [.group()] raises. *)
Fixpoint search_digits (s : string) : option string :=
  match s with
  | EmptyString => None
  | String c s' => if is_digit c then Some (take_digits s) else search_digits s'
  end.

Fixpoint all_digits (s : string) : bool :=
  match s with
  | EmptyString => true
  | String c s' => is_digit c && all_digits s'
  end.

(** [int(ds)] for a string of digits. *)
Definition int (ds : string) : option nat :=
  option_map Nat.of_uint (NilZero.uint_of_string ds).

(** The sort key of the animation cell:
    [int(re.search(r'(\d+)', os.path.basename(x)).group())]. *)
Definition frame_key (x : string) : option nat :=
  match search_digits (basename x) with
  | Some ds => int ds
  | None => None
  end.

(** [sorted(l, key=...)]: the keys are computed first, one per element (an
    exception in the key function aborts the sort), then the elements are
    put in nondecreasing order of key, elements of equal key keeping their
    order. *)
Fixpoint decorate {A} (key : A -> option nat) (l : list A) : option (list (nat * A)) :=
  match l with
  | [] => Some []
  | x :: l' =>
      match key x, decorate key l' with
      | Some k, Some d => Some ((k, x) :: d)
      | _, _ => None
      end
  end.

Fixpoint insert_by_key {A} (kx : nat * A) (l : list (nat * A)) : list (nat * A) :=
  match l with
  | [] => [kx]
  | ky :: l' =>
      if (fst kx <=? fst ky)%nat then kx :: l else ky :: insert_by_key kx l'
  end.

Definition sort_by_key {A} (l : list (nat * A)) : list (nat * A) :=
  fold_right insert_by_key [] l.

Definition sorted {A} (l : list A) (key : A -> option nat) : option (list A) :=
  option_map (fun d => map snd (sort_by_key d)) (decorate key l).

(** [lsorted] of the animation cell, for the list [imgs_list] that
    [glob.glob] returned. *)
Definition lsorted (imgs_list : list string) : option (list string) :=
  sorted imgs_list frame_key.

(** Order of the decorated elements. *)
Definition key_le {A} (a b : nat * A) : Prop := (fst a <= fst b)%nat.

(** ** Proof automation *)

(** Unfolds numpy's operations at a float. *)
Ltac np_float :=
  cbv [nadd nsub nmul ndiv nneg npowi npowr nsqrt nexp smul muls divs Numeric_R].

(** Unfolds numpy's operations at a list. *)
Ltac np_list :=
  cbv [nadd nsub nmul ndiv nneg npowi npowr nsqrt nexp smul muls divs Numeric_list].

(** Unfolds them at columns, rows and matrices of floats. *)
Ltac np_arrays :=
  cbv [nadd nsub nmul ndiv nneg npowi npowr nsqrt nexp smul muls divs
       Numeric_list Numeric_rowvec Numeric_R transpose row_entries].

(** * Properties *)

(** ** Lists, sums and matrices given by a formula *)

Lemma map2_map_same {A B C D} (f : B -> C -> D) (g : A -> B) (g' : A -> C) l :
  map2 f (map g l) (map g' l) = map (fun a => f (g a) (g' a)) l.
Proof. induction l as [|a l IH]; simpl; [easy | now rewrite IH]. Qed.

Ltac fuse_maps := repeat (rewrite ?map_map, ?map2_map_same).

Lemma outer_grid {A B} (f : R -> R -> R) (g : A -> R) (g' : B -> R) l l' :
  outer f (map g l) (Row (map g' l')) = grid (fun a b => f (g a) (g' b)) l l'.
Proof.
  unfold outer, grid, transpose; simpl. rewrite map_map.
  apply map_ext; intros a. now rewrite map_map.
Qed.

Lemma grid_map {A B} (f : R -> R) (F : A -> B -> R) l l' :
  map (map f) (grid F l l') = grid (fun a b => f (F a b)) l l'.
Proof.
  unfold grid. rewrite map_map. apply map_ext; intros a. now rewrite map_map.
Qed.

Lemma grid_map2 {A B} (f : R -> R -> R) (F G : A -> B -> R) l l' :
  map2 (map2 f) (grid F l l') (grid G l l') = grid (fun a b => f (F a b) (G a b)) l l'.
Proof.
  unfold grid. rewrite map2_map_same. apply map_ext; intros a.
  apply map2_map_same.
Qed.

Lemma sum_axis1_grid {A B} (F : A -> B -> R) l l' :
  sum_axis1 (grid F l l') = map (fun a => Rsum (map (F a) l')) l.
Proof. unfold sum_axis1, grid. now rewrite map_map. Qed.

Lemma grid_ext {A B} (F G : A -> B -> R) l l' :
  (forall a b, F a b = G a b) -> grid F l l' = grid G l l'.
Proof.
  intros E. unfold grid. apply map_ext; intros a. apply map_ext; intros b. apply E.
Qed.

Lemma grid_length {A B} (F : A -> B -> R) l l' : length (grid F l l') = length l.
Proof. unfold grid. apply length_map. Qed.

Lemma lookup_map {A B} (f : A -> B) (l : list A) (i : nat) :
  map f l !! i = option_map f (l !! i).
Proof.
  revert i; induction l as [|a l IH]; intros [|i]; simpl; auto.
Qed.

Lemma entry_grid {A B} (F : A -> B -> R) l l' i j a b :
  l !! i = Some a -> l' !! j = Some b -> entry (grid F l l') i j = Some (F a b).
Proof.
  intros Hi Hj. unfold entry, grid.
  rewrite lookup_map, Hi. simpl. now rewrite lookup_map, Hj.
Qed.

(** ** The kernel on floats *)

Lemma sq_sum_nonneg (x y z : R) : 0 <= x ^ 2 + y ^ 2 + z ^ 2.
Proof. pose proof (pow2_ge_0 x); pose proof (pow2_ge_0 y); pose proof (pow2_ge_0 z); lra. Qed.

Lemma radius_sq (x y z : R) : sqrt (x ^ 2 + y ^ 2 + z ^ 2) ^ 2 = x ^ 2 + y ^ 2 + z ^ 2.
Proof. apply pow2_sqrt, sq_sum_nonneg. Qed.

Lemma sq_opp (x : R) : (- x) ^ 2 = x ^ 2.
Proof. ring. Qed.

Lemma kernel_float (x y z h : R) :
  kernel x y z h = (1 / (h * sqrt PI)) ^ 3 * exp (- (x ^ 2 + y ^ 2 + z ^ 2) / h ^ 2).
Proof. unfold kernel; np_float. now rewrite radius_sq. Qed.

Lemma sqrt_PI_pos : 0 < sqrt PI.
Proof. apply sqrt_lt_R0, PI_RGT_0. Qed.

Lemma kernel_pos (x y z h : R) : 0 < h -> 0 < kernel x y z h.
Proof.
  intros Hh. rewrite kernel_float. apply Rmult_lt_0_compat; [|apply exp_pos].
  apply pow_lt. apply Rdiv_lt_0_compat; [lra|].
  apply Rmult_lt_0_compat; [exact Hh | exact sqrt_PI_pos].
Qed.

Lemma gradKernel_float (x y z h : R) :
  gradKernel x y z h =
  (grad_factor x y z h * x, grad_factor x y z h * y, grad_factor x y z h * z).
Proof. unfold gradKernel, grad_factor; np_float. now rewrite radius_sq. Qed.

Lemma grad_factor_opp (x y z h : R) :
  grad_factor (- x) (- y) (- z) h = grad_factor x y z h.
Proof. unfold grad_factor. now rewrite !sq_opp. Qed.



(** C4: for h > 0 the kernel gradient changes sign, component by
    component, when the displacement is negated, and it is the zero vector
    at zero separation. *)
Theorem gradKernel_odd_and_zero (h : R) :
  0 < h ->
  (forall dx dy dz : R,
     gradKernel (- dx) (- dy) (- dz) h =
     let '(gx, gy, gz) := gradKernel dx dy dz h in (- gx, - gy, - gz))
  /\ gradKernel 0 0 0 h = (0, 0, 0).
Proof.
  intros _. split.
  - intros dx dy dz. rewrite !gradKernel_float, grad_factor_opp.
    f_equal; [f_equal|]; ring.
  - rewrite gradKernel_float. f_equal; [f_equal|]; ring.
Qed.

Lemma gradKernel_odd_and_zero_witness :
  gradKernel (- 1) (- 2) (- 3) (1 / 10) =
    (let '(gx, gy, gz) := gradKernel 1 2 3 (1 / 10) in (- gx, - gy, - gz))
  /\ gradKernel 0 0 0 (1 / 10) = (0, 0, 0).
Proof.
  destruct (gradKernel_odd_and_zero (1 / 10)) as [Hodd Hz].
  - lra.
  - split; [apply Hodd | exact Hz].
Defined.

(** ** Lifting along one axis *)


Section Lifting.
Context {T : Type} `{Numeric T} {A : Type}.
Variables X Y Z : A -> T.

Lemma kernel_map (l : list A) (h : R) :
  kernel (map X l) (map Y l) (map Z l) h
  = map (fun a => kernel (X a) (Y a) (Z a) h) l.
Proof. unfold kernel. np_list. now fuse_maps. Qed.

Lemma gradKernel_map (l : list A) (h : R) :
  gradKernel (map X l) (map Y l) (map Z l) h
  = (map (fun a => fst (fst (gradKernel (X a) (Y a) (Z a) h))) l,
     map (fun a => snd (fst (gradKernel (X a) (Y a) (Z a) h))) l,
     map (fun a => snd (gradKernel (X a) (Y a) (Z a) h)) l).
Proof. unfold gradKernel. np_list. now fuse_maps. Qed.

Lemma pressure_map (rho : A -> T) (l : list A) (k n : R) :
  pressure (map rho l) k n = map (fun a => pressure (rho a) k n) l.
Proof. unfold pressure. np_list. now fuse_maps. Qed.
End Lifting.

Lemma kernel_grid {A B} (X Y Z : A -> B -> R) l l' h :
  kernel (grid X l l') (grid Y l l') (grid Z l l') h
  = grid (fun a b => kernel (X a b) (Y a b) (Z a b) h) l l'.
Proof.
  unfold grid. rewrite kernel_map. apply map_ext; intros a. apply kernel_map.
Qed.

Lemma gradKernel_grid {A B} (X Y Z : A -> B -> R) l l' h :
  gradKernel (grid X l l') (grid Y l l') (grid Z l l') h
  = (grid (fun a b => grad_factor (X a b) (Y a b) (Z a b) h * X a b) l l',
     grid (fun a b => grad_factor (X a b) (Y a b) (Z a b) h * Y a b) l l',
     grid (fun a b => grad_factor (X a b) (Y a b) (Z a b) h * Z a b) l l').
Proof.
  unfold grid. rewrite gradKernel_map.
  f_equal; [f_equal|]; apply map_ext; intros a;
    rewrite gradKernel_map; cbn [fst snd]; apply map_ext; intros b;
    now rewrite gradKernel_float.
Qed.

(** ** Separations and density *)

Lemma magnitude_grid (ri rj : points) :
  magnitude ri rj
  = (grid (fun a b => vx a - vx b) ri rj,
     grid (fun a b => vy a - vy b) ri rj,
     grid (fun a b => vz a - vz b) ri rj).
Proof. unfold magnitude, reshape_column, transpose. now rewrite !outer_grid. Qed.

Lemma density_map (r pos : points) (m h : R) :
  density r pos m h = map (rho_at pos m h) r.
Proof.
  unfold density. rewrite magnitude_grid, kernel_grid. unfold reshape_column.
  np_arrays. now rewrite grid_map, sum_axis1_grid.
Qed.

Lemma grid_rows {A B} (F : A -> B -> R) l l' :
  Forall (fun row => length row = length l') (grid F l l').
Proof.
  unfold grid. apply List.Forall_forall. intros row Hin.
  apply in_map_iff in Hin as (a & <- & _). apply length_map.
Qed.

(** C6: [magnitude] returns three matrices with one row per query particle
    and one column per reference particle, whose entries are the per-axis
    differences; for a set against itself the diagonal is zero. *)
Theorem magnitude_separations (ri rj : points) :
  ri <> [] ->
  (let '(dx, dy, dz) := magnitude ri rj in
   (length dx = length ri /\ length dy = length ri /\ length dz = length ri)
   /\ (Forall (fun row => length row = length rj) dx
       /\ Forall (fun row => length row = length rj) dy
       /\ Forall (fun row => length row = length rj) dz)
   /\ (forall i j a b, ri !! i = Some a -> rj !! j = Some b ->
         entry dx i j = Some (vx a - vx b)
         /\ entry dy i j = Some (vy a - vy b)
         /\ entry dz i j = Some (vz a - vz b)))
  /\ (let '(dx, dy, dz) := magnitude ri ri in
      forall i, (i < length ri)%nat ->
        entry dx i i = Some 0 /\ entry dy i i = Some 0 /\ entry dz i i = Some 0).
Proof.
  intros _. rewrite !magnitude_grid. split; [split; [|split]|].
  - now rewrite !grid_length.
  - repeat split; apply grid_rows.
  - intros i j a b Hi Hj.
    repeat split; now rewrite (entry_grid _ _ _ _ _ _ _ Hi Hj).
  - intros i Hi. destruct (lookup_lt_is_Some_2 ri i Hi) as [a Ha].
    repeat split; rewrite (entry_grid _ _ _ _ _ _ _ Ha Ha); f_equal; ring.
Qed.

Lemma magnitude_separations_witness :
  let ri := [Vec3 1 2 3; Vec3 4 6 8] in
  let rj := [Vec3 0 1 0] in
  let '(dx, dy, dz) := magnitude ri rj in
  entry dx 1 0 = Some (4 - 0) /\ entry dy 1 0 = Some (6 - 1) /\ entry dz 1 0 = Some (8 - 0).
Proof.
  pose proof (magnitude_separations [Vec3 1 2 3; Vec3 4 6 8] [Vec3 0 1 0]) as H.
  cbv zeta. destruct (magnitude _ _) as [[dx dy] dz].
  destruct H as [(_ & _ & H) _]; [discriminate|].
  apply (H 1%nat 0%nat (Vec3 4 6 8) (Vec3 0 1 0)); reflexivity.
Defined.

(** ** Sums *)








(** ** Equation of state *)




(** ** The heap *)

Lemma lookup_snoc_old {A} (s : list A) (x : A) (l : nat) :
  (l < length s)%nat -> (s ++ [x]) !! l = s !! l.
Proof. intros Hl. now apply lookup_app_l. Qed.

Lemma lookup_snoc_new {A} (s : list A) (x : A) : (s ++ [x]) !! length s = Some x.
Proof. rewrite lookup_app_r by lia. now rewrite Nat.sub_diag. Qed.

Lemma insert_snoc {A} (s : list A) (x y : A) : <[length s := y]> (s ++ [x]) = s ++ [y].
Proof.
  replace (length s) with (length s + 0)%nat at 1 by lia.
  now rewrite insert_app_r.
Qed.

Lemma hstack_map {A} (f g e : A -> R) (l : list A) :
  hstack (map f l) (map g l) (map e l) = map (fun a => Vec3 (f a) (g a) (e a)) l.
Proof. induction l as [|a l IH]; simpl; [easy | now rewrite IH]. Qed.

(** ** Acceleration in closed form *)

Lemma pair_terms_grid (c : vec3 -> R) (p : points) (m h k n : R) :
  pair_terms m (map (fun a => pressure (rho_at p m h a) k n) p) (map (rho_at p m h) p)
    (grid (fun a b => grad_factor (vx a - vx b) (vy a - vy b) (vz a - vz b) h * (c a - c b))
          p p)
  = grid (pair_term c p m h k n) p p.
Proof.
  unfold pair_terms. np_arrays. fuse_maps.
  rewrite outer_grid, grid_map, grid_map2. apply grid_ext. intros a b.
  unfold pair_term, stress. reflexivity.
Qed.

Lemma neg_column_map {A} (f : A -> R) (l : list A) :
  (- map f l)%np = map (fun a => - f a) l.
Proof. np_arrays. apply map_map. Qed.

(** Running [acceleration]: it allocates one array, the pressure
    acceleration of every particle plus the external and damping terms. *)
Lemma acceleration_run (s : heap) (pos vel : ref) (p v : points) (m h k n lmbda nu : R) :
  s !! pos = Some p -> s !! vel = Some v ->
  acceleration pos vel m h k n lmbda nu s
  = Some (length s,
          s ++ [(map (pressure_accel p m h k n) p + ((- lmbda) .* p - nu .* v))%np]).
Proof.
  intros Hp Hv. unfold acceleration, bind, load. rewrite Hp. cbv zeta.
  rewrite magnitude_grid, gradKernel_grid, density_map, pressure_map.
  rewrite !pair_terms_grid, !sum_axis1_grid. unfold reshape_column.
  rewrite !neg_column_map, hstack_map. unfold alloc.
  rewrite lookup_snoc_old, Hp by (eapply lookup_lt_Some; eassumption).
  rewrite lookup_snoc_old, Hv by (eapply lookup_lt_Some; eassumption).
  unfold iadd, ret. rewrite lookup_snoc_new, insert_snoc.
  reflexivity.
Qed.

(** ** Pairwise symmetry and momentum *)

Lemma Rsum_map_plus {A} (f g : A -> R) (l : list A) :
  Rsum (map (fun a => f a + g a) l) = Rsum (map f l) + Rsum (map g l).
Proof. induction l as [|a l IH]; simpl; [lra | rewrite IH; lra]. Qed.

Lemma Rsum_map_opp {A} (f : A -> R) (l : list A) :
  Rsum (map (fun a => - f a) l) = - Rsum (map f l).
Proof. induction l as [|a l IH]; simpl; [lra | rewrite IH; lra]. Qed.

Lemma Rsum_map_scal {A} (c : R) (f : A -> R) (l : list A) :
  Rsum (map (fun a => c * f a) l) = c * Rsum (map f l).
Proof. induction l as [|a l IH]; simpl; [lra | rewrite IH; lra]. Qed.

Lemma Rsum_map_ext {A} (f g : A -> R) (l : list A) :
  (forall a, f a = g a) -> Rsum (map f l) = Rsum (map g l).
Proof. intros E. f_equal. now apply map_ext. Qed.

(** A double sum of terms that change sign when the two indices are
    exchanged vanishes. *)
Lemma double_sum_antisym {A} (F : A -> A -> R) (l : list A) :
  (forall a b, F a b = - F b a) ->
  Rsum (map (fun a => Rsum (map (F a) l)) l) = 0.
Proof.
  intros Hanti. induction l as [|x l IH]; [reflexivity|].
  assert (Hxx : F x x = 0) by (pose proof (Hanti x x); lra).
  transitivity ((F x x + Rsum (map (F x) l))
                + Rsum (map (fun a => F a x + Rsum (map (F a) l)) l));
    [reflexivity|].
  rewrite Rsum_map_plus, IH.
  rewrite (Rsum_map_ext (fun a => F a x) (fun a => - F x a)) by (intros a; apply Hanti).
  rewrite Rsum_map_opp. lra.
Qed.

Lemma pair_term_antisym (c : vec3 -> R) (p : points) (m h k n : R) (a b : vec3) :
  pair_term c p m h k n a b = - pair_term c p m h k n b a.
Proof.
  unfold pair_term.
  replace (vx b - vx a) with (- (vx a - vx b)) by ring.
  replace (vy b - vy a) with (- (vy a - vy b)) by ring.
  replace (vz b - vz a) with (- (vz a - vz b)) by ring.
  rewrite grad_factor_opp. ring.
Qed.

Lemma momentum_pressure_accel (p : points) (m h k n : R) :
  momentum m (map (pressure_accel p m h k n) p) = Vec3 0 0 0.
Proof.
  unfold momentum. rewrite !map_map. cbn [pressure_accel vx vy vz].
  rewrite !Rsum_map_scal, !Rsum_map_opp.
  rewrite !double_sum_antisym by (intros a b; apply pair_term_antisym).
  f_equal; ring.
Qed.

(** Rows of the array returned by [acceleration]. *)
Lemma accel_rows (F : vec3 -> vec3) (p v : points) (lmbda nu : R) :
  length v = length p ->
  (map F p + ((- lmbda) .* p - nu .* v))%np
  = map2 (fun a b => (F a + ((- lmbda) .* a - nu .* b))%np) p v.
Proof.
  revert v; induction p as [|a p IH]; intros [|b v] E; try discriminate; [reflexivity|].
  injection E as E. specialize (IH v E).
  cbv [nadd nsub smul Numeric_list] in *. cbn [map map2] in *. now rewrite IH.
Qed.

Lemma accel_free (F : vec3 -> vec3) (p v : points) :
  length v = length p ->
  (map F p + ((- 0) .* p - 0 .* v))%np = map F p.
Proof.
  intros E. rewrite accel_rows by exact E.
  revert v E; induction p as [|a p IH]; intros [|b v] E; try discriminate; [reflexivity|].
  injection E as E. cbn [map map2]. rewrite (IH v E). f_equal.
  destruct (F a) as [x y z].
  cbv [nadd nsub smul Numeric_vec3 vec3_map vec3_map2 vx vy vz]. f_equal; ring.
Qed.

Lemma entry_grid_inv {A B} (F : A -> B -> R) l l' i j x :
  entry (grid F l l') i j = Some x ->
  exists a b, l !! i = Some a /\ l' !! j = Some b /\ x = F a b.
Proof.
  unfold entry, grid. rewrite lookup_map.
  destruct (l !! i) as [a|]; [|discriminate]. cbn [option_map].
  rewrite lookup_map. destruct (l' !! j) as [b|]; [|discriminate].
  cbn [option_map]. intros [= <-]. now exists a, b.
Qed.






(** ** The integrator *)

Lemma step_run (s : heap) (pos vel : ref) (p v : points) (m h k n lmbda nu dt : R) :
  s !! pos = Some p -> s !! vel = Some v -> pos <> vel ->
  let a := (map (pressure_accel p m h k n) p + ((- lmbda) .* p - nu .* v))%np in
  let v' := (v + a *~ dt)%np in
  let p' := (p + v' *~ dt)%np in
  step pos vel m h k n lmbda nu dt s
  = Some (density p' p' m h, <[pos := p']> (<[vel := v']> (s ++ [a]))).
Proof.
  intros Hp Hv Hne a v' p'.
  assert (Hpl : (pos < length s)%nat) by (eapply lookup_lt_Some; eassumption).
  assert (Hvl : (vel < length s)%nat) by (eapply lookup_lt_Some; eassumption).
  unfold step, bind. rewrite (acceleration_run s pos vel p v) by assumption.
  fold a. unfold load, iadd, ret.
  rewrite lookup_snoc_new, lookup_snoc_old, Hv by exact Hvl. fold v'.
  rewrite list_lookup_insert_eq by (rewrite length_app; lia).
  rewrite list_lookup_insert_ne, lookup_snoc_old, Hp by (exact Hpl || congruence).
  fold p'. rewrite list_lookup_insert_eq by (rewrite length_insert, length_app; lia).
  reflexivity.
Qed.



(** ** The diagonal of the pair matrices *)






(** ** A single particle *)



(** ** Who writes the particle arrays *)

(** [initial] hands out two distinct arrays. *)
Lemma initial_run (pos0 : points) (s : heap) :
  exists (pos vel : ref) (s' : heap),
    initial pos0 s = Some ((pos, vel), s')
    /\ pos <> vel
    /\ s' !! pos = Some pos0
    /\ s' !! vel = Some (map (fun _ => Vec3 0 0 0) pos0).
Proof.
  exists (length s), (S (length s)), (s ++ [pos0] ++ [map (fun _ => Vec3 0 0 0) pos0]).
  split; [|split; [lia|split]].
  - unfold initial, bind, alloc, ret. rewrite length_app, <- app_assoc. simpl.
    now rewrite Nat.add_1_r.
  - rewrite lookup_app_r by lia. now rewrite Nat.sub_diag.
  - rewrite lookup_app_r by lia. now replace (S (length s) - length s)%nat with 1%nat by lia.
Qed.

(** The loop never fails on two distinct arrays: every iteration returns. *)
Lemma main_loop_returns (Nt : nat) (s : heap) (pos vel : ref) (p v : points)
    (m h k n lmbda nu dt : R) :
  s !! pos = Some p -> s !! vel = Some v -> pos <> vel ->
  exists s', main_loop Nt pos vel m h k n lmbda nu dt s = Some (tt, s').
Proof.
  revert s p v. induction Nt as [|Nt IH]; intros s p v Hp Hv Hne.
  - now exists s.
  - assert (Hpl : (pos < length s)%nat) by (eapply lookup_lt_Some; eassumption).
    assert (Hvl : (vel < length s)%nat) by (eapply lookup_lt_Some; eassumption).
    cbn [main_loop]. unfold bind at 1.
    rewrite (step_run s pos vel p v) by assumption. cbv zeta.
    eapply IH; [| |exact Hne].
    + apply list_lookup_insert_eq. rewrite length_insert, length_app; lia.
    + rewrite list_lookup_insert_ne by congruence.
      apply list_lookup_insert_eq. rewrite length_app; lia.
Qed.



(** * Further properties *)

(** ** The kernel as a function of the displacement *)

Lemma kernel_at_zero (h : R) : kernel 0 0 0 h = (1 / (h * sqrt PI)) ^ 3.
Proof.
  rewrite kernel_float.
  replace (- (0 ^ 2 + 0 ^ 2 + 0 ^ 2) / h ^ 2) with 0 by (unfold Rdiv; ring).
  rewrite exp_0. ring.
Qed.

Lemma h_sq_pos (h : R) : h <> 0 -> 0 < h ^ 2.
Proof.
  intros Hh. pose proof (pow2_ge_0 h).
  assert (h ^ 2 <> 0) by (apply pow_nonzero; exact Hh). lra.
Qed.

(** X1: for h > 0 the kernel is largest at zero separation, and only
    there. *)
Theorem kernel_peak_at_zero (x y z h : R) :
  0 < h ->
  kernel x y z h <= kernel 0 0 0 h
  /\ (kernel x y z h = kernel 0 0 0 h -> x = 0 /\ y = 0 /\ z = 0).
Proof.
  intros Hh.
  assert (Hc : 0 < (1 / (h * sqrt PI)) ^ 3).
  { rewrite <- kernel_at_zero. now apply kernel_pos. }
  assert (Hh2 : 0 < h ^ 2) by (apply h_sq_pos; lra).
  pose proof (sq_sum_nonneg x y z) as Hs.
  rewrite kernel_at_zero, kernel_float.
  set (u := - (x ^ 2 + y ^ 2 + z ^ 2) / h ^ 2).
  assert (Hu : u <= 0).
  { unfold u, Rdiv. pose proof (Rinv_0_lt_compat _ Hh2). nra. }
  split.
  - destruct Hu as [Hu | Hu].
    + apply exp_increasing in Hu. rewrite exp_0 in Hu. nra.
    + rewrite Hu, exp_0. lra.
  - intros E.
    assert (Hexp : exp u = 1) by nra.
    rewrite <- exp_0 in Hexp. apply exp_inv in Hexp.
    assert (Hz : x ^ 2 + y ^ 2 + z ^ 2 = 0).
    { unfold u, Rdiv in Hexp. apply Rmult_integral in Hexp as [H0 | H0]; [lra|].
      pose proof (Rinv_0_lt_compat _ Hh2). lra. }
    pose proof (pow2_ge_0 x); pose proof (pow2_ge_0 y); pose proof (pow2_ge_0 z).
    repeat split; apply (Rsqr_0_uniq); unfold Rsqr; nra.
Qed.

Lemma kernel_peak_at_zero_witness :
  kernel 1 2 3 (1 / 10) <= kernel 0 0 0 (1 / 10).
Proof.
  apply (kernel_peak_at_zero 1 2 3 (1 / 10)). lra.
Defined.

Lemma derivable_pt_lim_ext (f g : R -> R) (x l : R) :
  (forall t, f t = g t) -> derivable_pt_lim f x l -> derivable_pt_lim g x l.
Proof.
  intros E Hf eps Heps. destruct (Hf eps Heps) as [delta Hd].
  exists delta. intros t Ht Htd. rewrite <- !E. now apply Hd.
Qed.

(** Derivative of a Gaussian in one of the displacements. *)
Lemma gaussian_derivative (C c h x : R) :
  h <> 0 ->
  derivable_pt_lim (fun t => C * exp (- (t ^ 2 + c) / h ^ 2)) x
    (C * (exp (- (x ^ 2 + c) / h ^ 2) * (- / h ^ 2 * (2 * x)))).
Proof.
  intros Hh.
  pose proof (derivable_pt_lim_pow x 2) as Hsq.
  pose proof (derivable_pt_lim_const c x) as Hc.
  pose proof (derivable_pt_lim_plus _ _ _ _ _ Hsq Hc) as Hsum.
  pose proof (derivable_pt_lim_scal _ (- / h ^ 2) _ _ Hsum) as Hin.
  pose proof (derivable_pt_lim_comp _ _ _ _ _ Hin (derivable_pt_lim_exp _)) as Hexp.
  pose proof (derivable_pt_lim_scal _ C _ _ Hexp) as Hall.
  replace (C * (exp (- (x ^ 2 + c) / h ^ 2) * (- / h ^ 2 * (2 * x))))
    with (C * (exp (mult_real_fct (- / h ^ 2) ((fun y => y ^ 2) + fct_cte c)%F x)
               * (- / h ^ 2 * (INR 2 * x ^ Init.Nat.pred 2 + 0)))).
  - eapply derivable_pt_lim_ext; [|exact Hall].
    intros t. unfold mult_real_fct, comp, plus_fct, fct_cte. do 2 f_equal.
    unfold Rdiv. ring.
  - unfold mult_real_fct, plus_fct, fct_cte. simpl. do 2 f_equal.
    + f_equal. unfold Rdiv. ring.
    + ring.
Qed.

Lemma sqrt_PI_cubed : sqrt PI ^ 3 = Rpower PI (3 / 2).
Proof.
  rewrite <- (Rpower_pow 3 (sqrt PI)) by exact sqrt_PI_pos.
  rewrite <- (Rpower_sqrt PI) by exact PI_RGT_0.
  rewrite Rpower_mult. f_equal. simpl. lra.
Qed.

Lemma gaussian_slope (h s d : R) :
  h <> 0 ->
  (1 / (h * sqrt PI)) ^ 3 * (exp (- s / h ^ 2) * (- / h ^ 2 * (2 * d)))
  = -2 * exp (- s / h ^ 2) / h ^ 5 / Rpower PI (3 / 2) * d.
Proof.
  intros Hh. rewrite <- sqrt_PI_cubed.
  pose proof sqrt_PI_pos. field. split; lra.
Qed.

(** X2: for h <> 0 the three components returned by [gradKernel] are the
    partial derivatives of [kernel] in the three displacements. *)
Theorem gradKernel_is_gradient (x y z h : R) :
  h <> 0 ->
  let '(gx, gy, gz) := gradKernel x y z h in
  derivable_pt_lim (fun t => kernel t y z h) x gx
  /\ derivable_pt_lim (fun t => kernel x t z h) y gy
  /\ derivable_pt_lim (fun t => kernel x y t h) z gz.
Proof.
  intros Hh. rewrite gradKernel_float. unfold grad_factor.
  split; [|split].
  - rewrite <- gaussian_slope by exact Hh.
    eapply derivable_pt_lim_ext;
      [|replace (x ^ 2 + y ^ 2 + z ^ 2) with (x ^ 2 + (y ^ 2 + z ^ 2)) by ring;
        apply gaussian_derivative; exact Hh].
    intros t. rewrite kernel_float. do 3 f_equal. ring.
  - rewrite <- gaussian_slope by exact Hh.
    eapply derivable_pt_lim_ext;
      [|replace (x ^ 2 + y ^ 2 + z ^ 2) with (y ^ 2 + (x ^ 2 + z ^ 2)) by ring;
        apply gaussian_derivative; exact Hh].
    intros t. rewrite kernel_float. do 3 f_equal. ring.
  - rewrite <- gaussian_slope by exact Hh.
    eapply derivable_pt_lim_ext;
      [|replace (x ^ 2 + y ^ 2 + z ^ 2) with (z ^ 2 + (x ^ 2 + y ^ 2)) by ring;
        apply gaussian_derivative; exact Hh].
    intros t. rewrite kernel_float. do 3 f_equal. ring.
Qed.

Lemma gradKernel_is_gradient_witness :
  let '(gx, gy, gz) := gradKernel 1 2 3 (1 / 10) in
  derivable_pt_lim (fun t => kernel t 2 3 (1 / 10)) 1 gx
  /\ derivable_pt_lim (fun t => kernel 1 t 3 (1 / 10)) 2 gy
  /\ derivable_pt_lim (fun t => kernel 1 2 t (1 / 10)) 3 gz.
Proof.
  apply (gradKernel_is_gradient 1 2 3 (1 / 10)). lra.
Defined.

(** ** Symmetries of the separations and of the density *)

(** X3: exchanging the two particle sets transposes the separation
    matrices and negates every entry. *)
Theorem magnitude_swap (ri rj : points) :
  let '(dx, dy, dz) := magnitude ri rj in
  let '(ex, ey, ez) := magnitude rj ri in
  forall i j,
    (forall x, entry dx i j = Some x -> entry ex j i = Some (- x))
    /\ (forall y, entry dy i j = Some y -> entry ey j i = Some (- y))
    /\ (forall z, entry dz i j = Some z -> entry ez j i = Some (- z)).
Proof.
  rewrite !magnitude_grid. intros i j.
  repeat split; intros x Hx;
    apply entry_grid_inv in Hx as (a & b & Ha & Hb & ->);
    rewrite (entry_grid _ _ _ _ _ _ _ Hb Ha); f_equal; ring.
Qed.











(** ** The pressure force *)





(** ** Shapes and the external terms *)

Lemma map2_length {A B C} (f : A -> B -> C) (l1 : list A) (l2 : list B) :
  length l2 = length l1 -> length (map2 f l1 l2) = length l1.
Proof.
  revert l2; induction l1 as [|a l1 IH]; intros [|b l2] E; simpl in *;
    try discriminate; [reflexivity|].
  f_equal. apply IH. now injection E.
Qed.

Lemma accel_length (F : vec3 -> vec3) (p v : points) (lmbda nu : R) :
  length v = length p ->
  length (map F p + ((- lmbda) .* p - nu .* v))%np = length p.
Proof. intros E. rewrite accel_rows by exact E. now apply map2_length. Qed.

(** X7: on N positions and N velocities [acceleration] returns N rows, and
    the array it returns is the one it returns for lmbda = nu = 0 plus
    -lmbda pos - nu vel: confinement and damping are added to the pressure
    acceleration and do not interact with it. *)
Theorem acceleration_external_terms
    (s : heap) (pos vel : ref) (p v : points) (m h k n lmbda nu : R) :
  0 < h -> 0 < m -> n <> 0 ->
  s !! pos = Some p -> s !! vel = Some v -> length v = length p ->
  exists (a : ref) (s0 s1 : heap) (acc0 acc : points),
    acceleration pos vel m h k n 0 0 s = Some (a, s0)
    /\ s0 !! a = Some acc0
    /\ acceleration pos vel m h k n lmbda nu s = Some (a, s1)
    /\ s1 !! a = Some acc
    /\ length acc = length p
    /\ acc = (acc0 + ((- lmbda) .* p - nu .* v))%np.
Proof.
  intros _ _ _ Hp Hv Hlen. do 5 eexists.
  split; [apply (acceleration_run s pos vel p v); assumption|].
  split; [apply lookup_snoc_new|].
  split; [apply (acceleration_run s pos vel p v); assumption|].
  split; [apply lookup_snoc_new|].
  split; [now apply accel_length|].
  now rewrite accel_free.
Qed.

Lemma acceleration_external_terms_witness :
  let p := [Vec3 0 0 0; Vec3 1 0 0] in
  let v := [Vec3 0 1 0; Vec3 0 0 1] in
  exists (a : ref) (s0 s1 : heap) (acc0 acc : points),
    acceleration 0 1 1 1 (1 / 10) 1 0 0 [p; v] = Some (a, s0)
    /\ s0 !! a = Some acc0
    /\ acceleration 0 1 1 1 (1 / 10) 1 2 3 [p; v] = Some (a, s1)
    /\ s1 !! a = Some acc
    /\ length acc = length p
    /\ acc = (acc0 + ((- 2) .* p - 3 .* v))%np.
Proof.
  intros p v.
  apply (acceleration_external_terms [p; v] 0%nat 1%nat p v 1 1 (1 / 10) 1 2 3);
    [lra | lra | lra | reflexivity | reflexivity | reflexivity].
Defined.

(** ** Invariants of the main loop *)

Lemma axpy_length (v a : points) (dt : R) :
  length a = length v -> length (v + a *~ dt)%np = length v.
Proof.
  intros E. cbv [nadd muls Numeric_list]. apply map2_length.
  now rewrite length_map.
Qed.

Lemma Rsum_cons (x : R) (l : list R) : Rsum (x :: l) = x + Rsum l.
Proof. reflexivity. Qed.

(** Mass-weighted sums are linear in the update [v + a * dt]. *)
Lemma Rsum_axpy (c : vec3 -> R) (m dt : R) (v a : points) :
  (c = vx \/ c = vy \/ c = vz) -> length a = length v ->
  Rsum (map (fun r => m * c r) (v + a *~ dt)%np)
  = Rsum (map (fun r => m * c r) v) + dt * Rsum (map (fun r => m * c r) a).
Proof.
  intros Hc.
  revert a; induction v as [|x v IH]; intros [|y a] E; try discriminate.
  - simpl. lra.
  - injection E as E.
    change ((x :: v) + (y :: a) *~ dt)%np
      with ((x + y *~ dt)%np :: (v + a *~ dt)%np).
    cbn [map]. rewrite !Rsum_cons, (IH a E).
    assert (Hx : c (x + y *~ dt)%np = c x + c y * dt).
    { destruct Hc as [-> | [-> | ->]]; destruct x, y; reflexivity. }
    rewrite Hx. ring.
Qed.

Lemma momentum_axpy (m dt : R) (v a : points) :
  length a = length v -> momentum m a = Vec3 0 0 0 ->
  momentum m (v + a *~ dt)%np = momentum m v.
Proof.
  intros E Hzero. unfold momentum in *. injection Hzero as Hx Hy Hz.
  rewrite !Rsum_axpy by tauto. rewrite Hx, Hy, Hz. f_equal; ring.
Qed.

(** State after one iteration. *)
Lemma step_invariant
    (s : heap) (pos vel : ref) (p v : points) (m h k n lmbda nu dt : R) :
  s !! pos = Some p -> s !! vel = Some v -> pos <> vel -> length v = length p ->
  exists (rho : list R) (s' : heap) (p' v' : points),
    step pos vel m h k n lmbda nu dt s = Some (rho, s')
    /\ s' !! pos = Some p' /\ s' !! vel = Some v'
    /\ length p' = length p /\ length v' = length p /\ length rho = length p
    /\ (length s <= length s')%nat
    /\ (forall l, (l < length s)%nat -> l <> pos -> l <> vel -> s' !! l = s !! l)
    /\ (lmbda = 0 -> nu = 0 -> momentum m v' = momentum m v).
Proof.
  intros Hp Hv Hne Hlen.
  assert (Hpl : (pos < length s)%nat) by (eapply lookup_lt_Some; eassumption).
  assert (Hvl : (vel < length s)%nat) by (eapply lookup_lt_Some; eassumption).
  pose proof (step_run s pos vel p v m h k n lmbda nu dt Hp Hv Hne) as Hstep.
  cbv zeta in Hstep.
  pose proof (accel_length (pressure_accel p m h k n) p v lmbda nu Hlen) as Hal.
  set (a := (map (pressure_accel p m h k n) p + ((- lmbda) .* p - nu .* v))%np) in *.
  assert (Hvl' : length (v + a *~ dt)%np = length p)
    by (rewrite axpy_length; congruence).
  assert (Hpl' : length (p + (v + a *~ dt) *~ dt)%np = length p)
    by (rewrite axpy_length; congruence).
  do 4 eexists. split; [exact Hstep|].
  split; [apply list_lookup_insert_eq; rewrite length_insert, length_app; lia|].
  split; [rewrite list_lookup_insert_ne by congruence;
          apply list_lookup_insert_eq; rewrite length_app; lia|].
  split; [exact Hpl'|]. split; [exact Hvl'|].
  split; [rewrite density_map, length_map; exact Hpl'|].
  split; [rewrite !length_insert, length_app; lia|].
  split.
  - intros l Hl Hlp Hlv.
    rewrite !list_lookup_insert_ne by congruence. now apply lookup_snoc_old.
  - intros -> ->. apply momentum_axpy; [congruence|].
    unfold a. rewrite accel_free by exact Hlen. apply momentum_pressure_accel.
Qed.

(** State after [Nt] iterations. *)
Lemma main_loop_invariant
    (Nt : nat) (s : heap) (pos vel : ref) (p v : points) (m h k n lmbda nu dt : R) :
  s !! pos = Some p -> s !! vel = Some v -> pos <> vel -> length v = length p ->
  exists (s' : heap) (p' v' : points),
    main_loop Nt pos vel m h k n lmbda nu dt s = Some (tt, s')
    /\ s' !! pos = Some p' /\ s' !! vel = Some v'
    /\ length p' = length p /\ length v' = length p
    /\ (length s <= length s')%nat
    /\ (forall l, (l < length s)%nat -> l <> pos -> l <> vel -> s' !! l = s !! l)
    /\ (lmbda = 0 -> nu = 0 -> momentum m v' = momentum m v).
Proof.
  revert s p v. induction Nt as [|Nt IH]; intros s p v Hp Hv Hne Hlen.
  - exists s, p, v. repeat split; assumption || reflexivity.
  - destruct (step_invariant s pos vel p v m h k n lmbda nu dt Hp Hv Hne Hlen)
      as (rho & s1 & p1 & v1 & Hstep & Hp1 & Hv1 & Hlp1 & Hlv1 & _ & Hgrow & Hframe & Hmom).
    destruct (IH s1 p1 v1 Hp1 Hv1 Hne ltac:(congruence))
      as (s' & p' & v' & Hloop & Hp' & Hv' & Hlp' & Hlv' & Hgrow' & Hframe' & Hmom').
    exists s', p', v'. cbn [main_loop]. unfold bind at 1. rewrite Hstep.
    split; [exact Hloop|]. repeat split; try congruence; try lia.
    + intros l Hl Hlp Hlv. rewrite Hframe' by (assumption || lia).
      now apply Hframe.
    + intros Hl Hnu. rewrite (Hmom' Hl Hnu). now apply Hmom.
Qed.

(** X8: started on two distinct arrays of N positions and N velocities,
    the main loop runs all its iterations; afterwards both arrays still
    have N rows, and every other array that existed before is unchanged. *)
Theorem main_loop_keeps_particle_count
    (Nt : nat) (s : heap) (pos vel : ref) (p v : points) (m h k n lmbda nu dt : R) :
  0 < h -> 0 < m -> n <> 0 ->
  s !! pos = Some p -> s !! vel = Some v -> pos <> vel -> length v = length p ->
  exists (s' : heap) (p' v' : points),
    main_loop Nt pos vel m h k n lmbda nu dt s = Some (tt, s')
    /\ s' !! pos = Some p' /\ s' !! vel = Some v'
    /\ length p' = length p /\ length v' = length p
    /\ forall l, (l < length s)%nat -> l <> pos -> l <> vel -> s' !! l = s !! l.
Proof.
  intros _ _ _ Hp Hv Hne Hlen.
  destruct (main_loop_invariant Nt s pos vel p v m h k n lmbda nu dt Hp Hv Hne Hlen)
    as (s' & p' & v' & Hloop & Hp' & Hv' & Hlp' & Hlv' & _ & Hframe & _).
  now exists s', p', v'.
Qed.

Lemma main_loop_keeps_particle_count_witness :
  let p := [Vec3 0 0 0; Vec3 1 0 0] in
  let v := [Vec3 0 0 0; Vec3 0 0 0] in
  exists (s' : heap) (p' v' : points),
    main_loop 800 0 1 1 1 (1 / 10) 1 2 3 (1 / 100) [p; v] = Some (tt, s')
    /\ s' !! 0%nat = Some p' /\ s' !! 1%nat = Some v'
    /\ length p' = length p /\ length v' = length p
    /\ forall l, (l < length [p; v])%nat -> l <> 0%nat -> l <> 1%nat ->
         s' !! l = [p; v] !! l.
Proof.
  intros p v.
  apply (main_loop_keeps_particle_count 800 [p; v] 0%nat 1%nat p v
           1 1 (1 / 10) 1 2 3 (1 / 100));
    [lra | lra | lra | reflexivity | reflexivity | discriminate | reflexivity].
Defined.

(** X9: without external force and damping (lmbda = nu = 0) the main loop
    conserves the total momentum m * sum of the velocities, whatever the
    number of iterations and the time step. *)
Theorem main_loop_conserves_momentum
    (Nt : nat) (s : heap) (pos vel : ref) (p v : points) (m h k n dt : R) :
  0 < h -> 0 < m -> n <> 0 ->
  s !! pos = Some p -> s !! vel = Some v -> pos <> vel -> length v = length p ->
  exists (s' : heap) (v' : points),
    main_loop Nt pos vel m h k n 0 0 dt s = Some (tt, s')
    /\ s' !! vel = Some v'
    /\ momentum m v' = momentum m v.
Proof.
  intros _ _ _ Hp Hv Hne Hlen.
  destruct (main_loop_invariant Nt s pos vel p v m h k n 0 0 dt Hp Hv Hne Hlen)
    as (s' & p' & v' & Hloop & _ & Hv' & _ & _ & _ & _ & Hmom).
  exists s', v'. auto.
Qed.

Lemma main_loop_conserves_momentum_witness :
  let p := [Vec3 0 0 0; Vec3 1 0 0; Vec3 0 2 0] in
  let v := [Vec3 1 0 0; Vec3 0 1 0; Vec3 0 0 1] in
  exists (s' : heap) (v' : points),
    main_loop 800 0 1 1 1 (1 / 10) 1 0 0 (1 / 100) [p; v] = Some (tt, s')
    /\ s' !! 1%nat = Some v'
    /\ momentum 1 v' = momentum 1 v.
Proof.
  intros p v.
  apply (main_loop_conserves_momentum 800 [p; v] 0%nat 1%nat p v
           1 1 (1 / 10) 1 (1 / 100));
    [lra | lra | lra | reflexivity | reflexivity | discriminate | reflexivity].
Defined.

(** ** Two particles starting at rest *)




(** ** A step of size zero *)

Lemma axpy_zero (v a : points) : length a = length v -> (v + a *~ 0)%np = v.
Proof.
  revert a; induction v as [|x v IH]; intros [|y a] E; try discriminate;
    [reflexivity|].
  injection E as E.
  change ((x :: v) + (y :: a) *~ 0)%np with ((x + y *~ 0)%np :: (v + a *~ 0)%np).
  rewrite (IH a E). f_equal. destruct x, y.
  cbv [nadd muls Numeric_vec3 vec3_map vec3_map2 vx vy vz]. f_equal; ring.
Qed.

(** X11: with dt = 0 an iteration leaves the positions and the velocities
    as they were and returns the density of the unchanged positions. *)
Theorem step_zero_timestep
    (s : heap) (pos vel : ref) (p v : points) (m h k n lmbda nu : R) :
  0 < h -> 0 < m -> n <> 0 ->
  s !! pos = Some p -> s !! vel = Some v -> pos <> vel -> length v = length p ->
  exists s' : heap,
    step pos vel m h k n lmbda nu 0 s = Some (density p p m h, s')
    /\ s' !! pos = Some p
    /\ s' !! vel = Some v.
Proof.
  intros _ _ _ Hp Hv Hne Hlen.
  assert (Hpl : (pos < length s)%nat) by (eapply lookup_lt_Some; eassumption).
  assert (Hvl : (vel < length s)%nat) by (eapply lookup_lt_Some; eassumption).
  pose proof (step_run s pos vel p v m h k n lmbda nu 0 Hp Hv Hne) as Hstep.
  cbv zeta in Hstep.
  pose proof (accel_length (pressure_accel p m h k n) p v lmbda nu Hlen) as Hal.
  rewrite (axpy_zero v) in Hstep by congruence.
  rewrite (axpy_zero p) in Hstep by congruence.
  eexists. split; [exact Hstep|]. split.
  - apply list_lookup_insert_eq. rewrite length_insert, length_app; lia.
  - rewrite list_lookup_insert_ne by congruence.
    apply list_lookup_insert_eq. rewrite length_app; lia.
Qed.

Lemma step_zero_timestep_witness :
  let p := [Vec3 0 0 0; Vec3 1 0 0] in
  let v := [Vec3 0 1 0; Vec3 0 0 1] in
  exists s' : heap,
    step 0 1 1 1 (1 / 10) 1 2 3 0 [p; v] = Some (density p p 1 1, s')
    /\ s' !! 0%nat = Some p
    /\ s' !! 1%nat = Some v.
Proof.
  intros p v.
  apply (step_zero_timestep [p; v] 0%nat 1%nat p v 1 1 (1 / 10) 1 2 3);
    [lra | lra | lra | reflexivity | reflexivity | discriminate | reflexivity].
Defined.

(** ** Colours of the plot *)



(** ** File names of the frames *)

Lemma is_digit_not_sep (c : ascii) : is_digit c = true -> is_sep c = false.
Proof.
  destruct c as [[] [] [] [] [] [] [] []]; vm_compute; congruence.
Qed.

Lemma string_of_uint_digits (d : Decimal.uint) :
  all_digits (NilEmpty.string_of_uint d) = true.
Proof. induction d; simpl; auto. Qed.

Lemma to_uint_nonnil (i : nat) : Nat.to_uint i <> Decimal.Nil.
Proof.
  rewrite <- (Unsigned.of_to i) at 1. rewrite Unsigned.to_of.
  apply DecimalFacts.unorm_nonnil.
Qed.

Lemma str_digits (i : nat) : all_digits (str i) = true /\ str i <> EmptyString.
Proof.
  unfold str. pose proof (to_uint_nonnil i) as Hnil.
  destruct (Nat.to_uint i) as [|d|d|d|d|d|d|d|d|d|d] eqn:E; try easy;
    (split; [apply (string_of_uint_digits (_ d)) | discriminate]).
Qed.

Lemma int_str (i : nat) : int (str i) = Some i.
Proof.
  unfold int, str. rewrite NilZero.usu by apply to_uint_nonnil.
  simpl. now rewrite Unsigned.of_to.
Qed.

Lemma contains_sep_digits (ds : string) :
  all_digits ds = true -> contains_sep (ds ++ ".png") = false.
Proof.
  induction ds as [|c ds IH]; [reflexivity|]. simpl.
  intros [Hc Hds]%andb_prop. now rewrite (is_digit_not_sep c Hc), IH.
Qed.

Lemma basename_frame (ds : string) :
  all_digits ds = true ->
  basename ("output_3D_1/" ++ ds ++ ".png") = (ds ++ ".png")%string.
Proof.
  intros Hds. pose proof (contains_sep_digits ds Hds) as Hsep.
  cbn. rewrite Hsep. reflexivity.
Qed.

Lemma take_digits_frame (ds : string) :
  all_digits ds = true -> take_digits (ds ++ ".png") = ds.
Proof.
  induction ds as [|c ds IH]; [reflexivity|]. simpl.
  intros [Hc Hds]%andb_prop. now rewrite Hc, IH.
Qed.

Lemma search_digits_frame (ds : string) :
  all_digits ds = true -> ds <> EmptyString ->
  search_digits (ds ++ ".png") = Some ds.
Proof.
  intros Hds Hne. destruct ds as [|c ds]; [easy|].
  pose proof (take_digits_frame _ Hds) as Ht.
  simpl in Hds. apply andb_prop in Hds as [Hc _].
  change (String c ds ++ ".png")%string with (String c (ds ++ ".png")) in *.
  cbn [search_digits]. now rewrite Hc, Ht.
Qed.

Lemma frame_key_of_frame (i : nat) : frame_key (frame_name i) = Some i.
Proof.
  destruct (str_digits i) as [Hd Hne].
  unfold frame_key, frame_name.
  rewrite basename_frame, search_digits_frame by assumption.
  apply int_str.
Qed.

(** X13: the sort key of the file saved at iteration i is i (for i within
    the conversion limit): the number is read from the file name, not from
    the digits of the folder name. *)
Theorem frame_key_frame_name (i : nat) :
  (String.length (str i) <= 4300)%nat ->
  frame_key (frame_name i) = Some i.
Proof.
  intros _. apply frame_key_of_frame.
Qed.

Lemma frame_key_frame_name_witness : frame_key (frame_name 799) = Some 799%nat.
Proof.
  apply (frame_key_frame_name 799). vm_compute. lia.
Defined.

(** ** Sorting the frames *)

Lemma insert_by_key_perm {A} (kx : nat * A) (l : list (nat * A)) :
  Permutation (insert_by_key kx l) (kx :: l).
Proof.
  induction l as [|ky l IH]; [reflexivity|]. simpl.
  destruct (fst kx <=? fst ky)%nat; [reflexivity|].
  rewrite IH. apply perm_swap.
Qed.

Lemma sort_by_key_perm {A} (l : list (nat * A)) : Permutation (sort_by_key l) l.
Proof.
  induction l as [|kx l IH]; [reflexivity|]. simpl.
  rewrite insert_by_key_perm. now apply perm_skip.
Qed.

Lemma insert_by_key_sorted {A} (kx : nat * A) (l : list (nat * A)) :
  StronglySorted key_le l -> StronglySorted key_le (insert_by_key kx l).
Proof.
  induction 1 as [|ky l Hs IH Hall]; simpl.
  - repeat constructor.
  - destruct (fst kx <=? fst ky)%nat eqn:E.
    + apply Nat.leb_le in E. constructor; [now constructor|].
      constructor; [exact E|].
      eapply List.Forall_impl; [|exact Hall]. intros kz Hz. unfold key_le in *. lia.
    + apply Nat.leb_gt in E. constructor; [exact IH|].
      eapply Permutation_Forall; [symmetry; apply insert_by_key_perm|].
      constructor; [unfold key_le; lia | exact Hall].
Qed.

Lemma sort_by_key_sorted {A} (l : list (nat * A)) :
  StronglySorted key_le (sort_by_key l).
Proof.
  induction l as [|kx l IH]; [constructor|]. simpl. now apply insert_by_key_sorted.
Qed.

Lemma decorate_total {A} (key : A -> option nat) (g : A -> nat) (l : list A) :
  (forall x, In x l -> key x = Some (g x)) ->
  decorate key l = Some (map (fun x => (g x, x)) l).
Proof.
  induction l as [|x l IH]; intros Hkey; [reflexivity|]. simpl.
  rewrite (Hkey x) by now left.
  rewrite IH by (intros y Hy; apply Hkey; now right). reflexivity.
Qed.





Lemma frames_sorted_from (n start : nat) :
  StronglySorted (@key_le string) (map (fun i => (i, frame_name i)) (seq start n)).
Proof.
  revert start; induction n as [|n IH]; intros start; [constructor|]. simpl.
  constructor; [apply IH|].
  apply List.Forall_forall. intros kx Hin.
  apply in_map_iff in Hin as (j & <- & Hj). apply in_seq in Hj.
  unfold key_le. simpl. lia.
Qed.

(** X14: if the files found are the frames of iterations 0 .. Nt-1, in
    any order, [lsorted] lists them in the order of the iterations. *)
Theorem lsorted_frames_in_step_order (Nt : nat) (imgs_list : list string) :
  (forall i, (i < Nt)%nat -> (String.length (str i) <= 4300)%nat) ->
  Permutation imgs_list (map frame_name (seq 0 Nt)) ->
  lsorted imgs_list = Some (map frame_name (seq 0 Nt)).
Proof.
  intros _ Hperm. unfold lsorted, sorted.
  set (g := fun x => default 0%nat (frame_key x)).
  assert (Hg : forall i, g (frame_name i) = i)
    by (intros i; unfold g; now rewrite frame_key_of_frame).
  rewrite (decorate_total frame_key g).
  2:{ intros x Hx. eapply Permutation_in in Hx; [|exact Hperm].
      apply in_map_iff in Hx as (i & <- & _).
      now rewrite Hg, frame_key_of_frame. }
  simpl. f_equal.
  set (T := map (fun i => (i, frame_name i)) (seq 0 Nt)).
  assert (HT : Permutation (sort_by_key (map (fun x => (g x, x)) imgs_list)) T).
  { rewrite sort_by_key_perm, Hperm. unfold T. rewrite map_map.
    erewrite map_ext; [reflexivity|]. intros i. simpl. now rewrite Hg. }
  assert (Heq : sort_by_key (map (fun x => (g x, x)) imgs_list) = T).
  { apply (StronglySorted_unique_strong key_le);
      [|apply sort_by_key_sorted | apply frames_sorted_from | exact HT].
    intros x1 x2 H1 H2 H12 H21.
    rewrite HT in H1. apply list_elem_of_In in H1, H2.
    apply in_map_iff in H1 as (i & <- & _). apply in_map_iff in H2 as (j & <- & _).
    unfold key_le in *. simpl in *. assert (i = j) by lia. now subst. }
  rewrite Heq. unfold T. rewrite map_map. simpl. reflexivity.
Qed.

Lemma lsorted_frames_in_step_order_witness :
  lsorted [frame_name 2; frame_name 0; frame_name 1]
  = Some (map frame_name (seq 0 3)).
Proof.
  apply (lsorted_frames_in_step_order 3).
  { intros i Hi. destruct i as [|[|[|i]]]; [vm_compute; lia .. | lia]. }
  simpl. apply Permutation_sym.
  apply (perm_trans (perm_skip _ (perm_swap _ _ _))). apply perm_swap.
Defined.












(** ** The whole simulation *)

Lemma momentum_zeros (m : R) (pos0 : points) :
  momentum m (map (fun _ => Vec3 0 0 0) pos0) = Vec3 0 0 0.
Proof.
  unfold momentum. rewrite !map_map. cbn [vx vy vz].
  assert (H : Rsum (map (fun _ : vec3 => m * 0) pos0) = 0).
  { induction pos0 as [|a l IH]; [reflexivity|].
    cbn [map]. rewrite Rsum_cons, IH. ring. }
  now rewrite H.
Qed.

(** X17: from any initial positions the simulation runs to its end and
    returns two distinct arrays with as many rows as the initial
    positions; arrays that existed before are unchanged; and without
    external force and damping the total momentum at the end is zero, as
    at the start. *)
Theorem simulation_runs
    (pos0 : points) (Nt : nat) (s : heap) (m h k n lmbda nu dt : R) :
  0 < h -> 0 < m -> n <> 0 ->
  exists (pos vel : ref) (s' : heap) (p' v' : points),
    simulation pos0 Nt m h k n lmbda nu dt s = Some ((pos, vel), s')
    /\ pos <> vel
    /\ s' !! pos = Some p' /\ s' !! vel = Some v'
    /\ length p' = length pos0 /\ length v' = length pos0
    /\ (forall l, (l < length s)%nat -> s' !! l = s !! l)
    /\ (lmbda = 0 -> nu = 0 -> momentum m v' = Vec3 0 0 0).
Proof.
  intros _ _ _.
  assert (Hinit : initial pos0 s
                  = Some ((length s, S (length s)),
                          (s ++ [pos0]) ++ [map (fun _ => Vec3 0 0 0) pos0])).
  { unfold initial, bind, alloc, ret. rewrite length_app. simpl.
    now rewrite Nat.add_1_r. }
  set (s0 := (s ++ [pos0]) ++ [map (fun _ => Vec3 0 0 0) pos0]) in *.
  assert (Hp : s0 !! length s = Some pos0).
  { unfold s0. rewrite lookup_app_l by (rewrite length_app; simpl; lia).
    apply lookup_snoc_new. }
  assert (Hv : s0 !! S (length s) = Some (map (fun _ => Vec3 0 0 0) pos0)).
  { unfold s0. replace (S (length s)) with (length (s ++ [pos0]))
      by (rewrite length_app; simpl; lia).
    apply lookup_snoc_new. }
  destruct (main_loop_invariant Nt s0 (length s) (S (length s)) _ _
              m h k n lmbda nu dt Hp Hv ltac:(lia) ltac:(apply length_map))
    as (s' & p' & v' & Hloop & Hp' & Hv' & Hlp' & Hlv' & _ & Hframe & Hmom).
  exists (length s), (S (length s)), s', p', v'.
  unfold simulation, bind. rewrite Hinit. cbn [fst snd]. rewrite Hloop.
  split; [reflexivity|]. split; [lia|]. repeat split; try assumption.
  - intros l Hl. rewrite Hframe by (unfold s0; rewrite ?length_app; simpl; lia).
    unfold s0. rewrite <- app_assoc. now apply lookup_app_l.
  - intros Hl Hnu. rewrite (Hmom Hl Hnu). apply momentum_zeros.
Qed.

Lemma simulation_runs_witness :
  exists (pos vel : ref) (s' : heap) (p' v' : points),
    simulation [Vec3 0 0 0; Vec3 1 0 0] 800 (2 / 500) (1 / 10) (1 / 10) 1
      (201 / 100) 100 (1 / 100) [] = Some ((pos, vel), s')
    /\ pos <> vel
    /\ s' !! pos = Some p' /\ s' !! vel = Some v'
    /\ length p' = 2%nat /\ length v' = 2%nat
    /\ (forall l, (l < 0)%nat -> s' !! l = @nil (list vec3) !! l)
    /\ (201 / 100 = 0 -> 100 = 0 -> momentum (2 / 500) v' = Vec3 0 0 0).
Proof.
  apply (simulation_runs [Vec3 0 0 0; Vec3 1 0 0] 800 [] (2 / 500) (1 / 10) (1 / 10) 1
           (201 / 100) 100 (1 / 100)); lra.
Defined.

(** ** Damping that cancels the old velocity *)

Lemma damped_update (F : vec3 -> vec3) (p v : points) (lmbda nu dt : R) :
  nu * dt = 1 -> length v = length p ->
  (v + (map F p + ((- lmbda) .* p - nu .* v)) *~ dt)%np
  = map (fun a => ((F a + (- lmbda) .* a) *~ dt)%np) p.
Proof.
  intros Hcrit Hlen. rewrite accel_rows by exact Hlen.
  revert v Hlen; induction p as [|a p IH]; intros [|b v] E; try discriminate;
    [reflexivity|].
  injection E as E. cbn [map map2].
  change ((b :: v) + (?x :: ?l) *~ dt)%np with ((b + x *~ dt)%np :: (v + l *~ dt)%np).
  rewrite (IH v E). f_equal.
  destruct (F a) as [fx fy fz], a as [ax ay az], b as [bx b_y bz].
  cbv [nadd nsub smul muls Numeric_vec3 vec3_map vec3_map2 vx vy vz].
  assert (Hx : nu * dt * bx = bx) by (rewrite Hcrit; ring).
  assert (Hy : nu * dt * b_y = b_y) by (rewrite Hcrit; ring).
  assert (Hz : nu * dt * bz = bz) by (rewrite Hcrit; ring).
  f_equal; lra.
Qed.

(** X18: when nu * dt = 1, as for the notebook's nu = 100 and dt = 0.01,
    the damping term cancels the old velocity: two states with the same
    positions and different velocities have the same velocities,
    positions and densities after one step. *)
Theorem critical_damping_forgets_velocity
    (s1 s2 : heap) (pos vel : ref) (p v1 v2 : points) (m h k n lmbda nu dt : R) :
  0 < h -> 0 < m -> n <> 0 -> nu * dt = 1 ->
  s1 !! pos = Some p -> s1 !! vel = Some v1 ->
  s2 !! pos = Some p -> s2 !! vel = Some v2 ->
  pos <> vel -> length v1 = length p -> length v2 = length p ->
  exists (rho : list R) (s1' s2' : heap) (p' v' : points),
    step pos vel m h k n lmbda nu dt s1 = Some (rho, s1')
    /\ step pos vel m h k n lmbda nu dt s2 = Some (rho, s2')
    /\ s1' !! pos = Some p' /\ s2' !! pos = Some p'
    /\ s1' !! vel = Some v' /\ s2' !! vel = Some v'.
Proof.
  intros _ _ _ Hcrit Hp1 Hv1 Hp2 Hv2 Hne Hl1 Hl2.
  pose proof (step_run s1 pos vel p v1 m h k n lmbda nu dt Hp1 Hv1 Hne) as H1.
  pose proof (step_run s2 pos vel p v2 m h k n lmbda nu dt Hp2 Hv2 Hne) as H2.
  cbv zeta in H1, H2.
  rewrite (damped_update _ p v1) in H1 by assumption.
  rewrite (damped_update _ p v2) in H2 by assumption.
  assert (Hpl1 : (pos < length s1)%nat) by (eapply lookup_lt_Some; eassumption).
  assert (Hvl1 : (vel < length s1)%nat) by (eapply lookup_lt_Some; eassumption).
  assert (Hpl2 : (pos < length s2)%nat) by (eapply lookup_lt_Some; eassumption).
  assert (Hvl2 : (vel < length s2)%nat) by (eapply lookup_lt_Some; eassumption).
  do 5 eexists. split; [exact H1|]. split; [exact H2|].
  repeat split.
  - apply list_lookup_insert_eq. rewrite length_insert, length_app; lia.
  - apply list_lookup_insert_eq. rewrite length_insert, length_app; lia.
  - rewrite list_lookup_insert_ne by congruence.
    apply list_lookup_insert_eq. rewrite length_app; lia.
  - rewrite list_lookup_insert_ne by congruence.
    apply list_lookup_insert_eq. rewrite length_app; lia.
Qed.

Lemma critical_damping_forgets_velocity_witness :
  let p := [Vec3 0 0 0; Vec3 1 0 0] in
  let v1 := [Vec3 0 0 0; Vec3 0 0 0] in
  let v2 := [Vec3 1 2 3; Vec3 4 5 6] in
  exists (rho : list R) (s1' s2' : heap) (p' v' : points),
    step 0 1 (2 / 500) (1 / 10) (1 / 10) 1 (201 / 100) 100 (1 / 100) [p; v1]
      = Some (rho, s1')
    /\ step 0 1 (2 / 500) (1 / 10) (1 / 10) 1 (201 / 100) 100 (1 / 100) [p; v2]
       = Some (rho, s2')
    /\ s1' !! 0%nat = Some p' /\ s2' !! 0%nat = Some p'
    /\ s1' !! 1%nat = Some v' /\ s2' !! 1%nat = Some v'.
Proof.
  intros p v1 v2.
  apply (critical_damping_forgets_velocity [p; v1] [p; v2] 0%nat 1%nat p v1 v2
           (2 / 500) (1 / 10) (1 / 10) 1 (201 / 100) 100 (1 / 100));
    [lra | lra | lra | lra | reflexivity | reflexivity | reflexivity | reflexivity
     | discriminate | reflexivity | reflexivity].
Defined.
